(** * recipys.collections.bidirectionaliter

    A shallow embedding of [BiDirectionalIter], the iterator that walks a
    list indefinitely in either direction, together with the properties of
    its cursor arithmetic.

    Python integers are unbounded, so they are modelled by [Z].  The three
    host operations the class relies on ([len], [%] and list subscription)
    are modelled in [Py] with the exceptions they raise; the methods of the
    class thread the instance attributes explicitly and live in the
    exception monad [Py.result]. *)

From Stdlib Require Import ZArith List String Bool Lia Permutation.
Import ListNotations.

Local Open Scope Z_scope.

(** ** The host runtime *)

Module Py.

(** The exceptions integer modulo and list subscription can raise. *)
Inductive exn : Type :=
| ZeroDivisionError
| IndexError.

Inductive result (A : Type) : Type :=
| Ok (a : A)
| Raise (e : exn).

Arguments Ok {A} a.
Arguments Raise {A} e.

Definition bind {A B : Type} (r : result A) (k : A -> result B) : result B :=
  match r with
  | Ok a => k a
  | Raise e => Raise e
  end.

(** [failed r] tells whether the computation ended in an exception. *)
Definition failed {A : Type} (r : result A) : bool :=
  match r with
  | Ok _ => false
  | Raise _ => true
  end.

(** [len(l)] *)
Definition len {T : Type} (l : list T) : Z := Z.of_nat (List.length l).

(** [a % b] on integers: the result takes the sign of the divisor, as
    [Z.modulo] does; a zero divisor raises. *)
Definition mod_ (a b : Z) : result Z :=
  if b =? 0 then Raise ZeroDivisionError else Ok (a mod b).

(** [l[i]]: a negative subscript counts from the end of the list; a
    subscript that is still out of range afterwards raises. *)
Definition getitem {T : Type} (l : list T) (i : Z) : result T :=
  let j := if i <? 0 then i + len l else i in
  if (j <? 0) || (len l <=? j) then Raise IndexError
  else match nth_error l (Z.to_nat j) with
       | Some x => Ok x
       | None => Raise IndexError
       end.

End Py.

Import Py.

Declare Scope py_scope.
Delimit Scope py_scope with py.
Notation "x <- c ;; k" := (bind c (fun x => k))
  (at level 61, c at next level, right associativity) : py_scope.
Notation "' p <- c ;; k" := (bind c (fun x => match x with p => k end))
  (at level 61, p pattern, c at next level, right associativity) : py_scope.
Local Open Scope py_scope.

(** ** The class *)

Module BiDirectionalIter.

(** The instance attributes. *)
Record t (T : Type) : Type := Build {
  _elements : list T;
  _index : Z;
  _direction : Z;
  _length : Z
}.

Arguments Build {T} _ _ _ _.
Arguments _elements {T} _.
Arguments _index {T} _.
Arguments _direction {T} _.
Arguments _length {T} _.

Section Methods.
Context {T : Type}.

(** [__init__(self, elements, starting_index=0)] *)
Definition init (elements : list T) (starting_index : Z) : result (t T) :=
  Ok (Build elements starting_index 1 (len elements)).

(** [next(self)]: the returned pair is the value handed to the caller and
    the instance after the call. *)
Definition next (self : t T) : result (T * t T) :=
  i <- mod_ (_index self + _direction self) (_length self) ;;
  let self' := Build (_elements self) i (_direction self) (_length self) in
  x <- getitem (_elements self') (_index self') ;;
  Ok (x, self').

(** [set_direction_forward(self)] *)
Definition set_direction_forward (self : t T) : result (t T) :=
  Ok (Build (_elements self) (_index self) 1 (_length self)).

(** [set_direction_reverse(self)] *)
Definition set_direction_reverse (self : t T) : result (t T) :=
  Ok (Build (_elements self) (_index self) (-1) (_length self)).

End Methods.

End BiDirectionalIter.

Import BiDirectionalIter.

(** ** Clients of the class

    A caller drives an instance through a sequence of method calls.  [run]
    performs such a sequence, collecting the values [next] hands back, and
    stops at the first exception. *)

Inductive call : Type :=
| Next
| SetDirectionForward
| SetDirectionReverse.

Definition is_setter (c : call) : bool :=
  match c with
  | Next => false
  | SetDirectionForward | SetDirectionReverse => true
  end.

(** The cursor as a walk on the integers, without any wrap-around: the
    positions the calls of [next] among [cs] move to, in order, then the
    position and the direction the walk ends with.  It starts at position
    [i] with the step [dir]. *)
Fixpoint walk (cs : list call) (i dir : Z) : list Z * Z * Z :=
  match cs with
  | [] => ([], i, dir)
  | Next :: cs' =>
      let '(ps, j, dir') := walk cs' (i + dir) dir in
      ((i + dir) :: ps, j, dir')
  | SetDirectionForward :: cs' => walk cs' i 1
  | SetDirectionReverse :: cs' => walk cs' i (-1)
  end.

Section Clients.
Context {T : Type}.

Definition perform (c : call) (self : t T) : result (list T * t T) :=
  match c with
  | Next => '(x, self') <- next self ;; Ok ([x], self')
  | SetDirectionForward => self' <- set_direction_forward self ;; Ok ([], self')
  | SetDirectionReverse => self' <- set_direction_reverse self ;; Ok ([], self')
  end.

Fixpoint run (cs : list call) (self : t T) : result (list T * t T) :=
  match cs with
  | [] => Ok ([], self)
  | c :: cs' =>
      '(xs, self1) <- perform c self ;;
      '(ys, self2) <- run cs' self1 ;;
      Ok (xs ++ ys, self2)
  end.

(** [n] consecutive calls of [next]. *)
Fixpoint next_n (n : nat) (self : t T) : result (list T * t T) :=
  match n with
  | O => Ok ([], self)
  | S n' =>
      '(x, self1) <- next self ;;
      '(xs, self2) <- next_n n' self1 ;;
      Ok (x :: xs, self2)
  end.

(** Construct at [starting_index], keep the forward direction and call
    [next] [n] times. *)
Definition forward_traversal (elements : list T) (starting_index : Z)
    (n : nat) : result (list T * t T) :=
  self <- init elements starting_index ;;
  next_n n self.

(** Construct at [starting_index], switch to the reverse direction and call
    [next] [n] times. *)
Definition reverse_traversal (elements : list T) (starting_index : Z)
    (n : nat) : result (list T * t T) :=
  self <- init elements starting_index ;;
  self' <- set_direction_reverse self ;;
  next_n n self'.

(** The instance iterates over a non-empty list, whose length [__init__]
    recorded in [_length]. *)
Definition nonempty (self : t T) : Prop :=
  _length self = len (_elements self) /\ 0 < _length self.

(** The cursor designates a position of the list. *)
Definition in_range (self : t T) : Prop :=
  0 <= _index self < _length self.

(** The element at position [i], for [0 <= i < len l]. *)
Definition item (l : list T) (i : Z) (d : T) : T := nth (Z.to_nat i) l d.

(** What the caller of a run observes: the values handed back, or the
    exception. *)
Definition outputs (r : result (list T * t T)) : result (list T) :=
  '(xs, _) <- r ;; Ok xs.

(** Two instances over the same list that differ at most in their cursors,
    and whose cursors differ by a multiple of the length. *)
Definition same_cursor_mod (self self' : t T) : Prop :=
  _elements self = _elements self' /\
  _direction self = _direction self' /\
  _length self = _length self' /\
  _index self mod _length self = _index self' mod _length self.

(** The instance with its cursor moved to [i]. *)
Definition at_index (self : t T) (i : Z) : t T :=
  Build (_elements self) i (_direction self) (_length self).

End Clients.

(** The list of the module's example. *)
Definition rick_and_morty : list string := ["rick"%string; "morty"%string].

(** ** Host operations *)

Section HostFacts.
Context {T : Type}.

Lemma len_nonneg (l : list T) : 0 <= len l.
Proof. unfold len. lia. Qed.

Lemma len_pos_iff (l : list T) : 0 < len l <-> l <> [].
Proof.
  unfold len. destruct l as [|x l]; cbn [List.length]; split; intro H.
  - lia.
  - congruence.
  - discriminate.
  - lia.
Qed.

Lemma mod_pos (a b : Z) : 0 < b -> mod_ a b = Ok (a mod b).
Proof.
  intro Hb. unfold mod_.
  destruct (Z.eqb_spec b 0) as [E|_]; [lia | reflexivity].
Qed.

Lemma getitem_in_bounds (l : list T) (i : Z) (d : T) :
  0 <= i < len l -> getitem l i = Ok (nth (Z.to_nat i) l d).
Proof.
  intros [Hlo Hhi]. unfold getitem.
  destruct (Z.ltb_spec i 0) as [F|_]; [lia|].
  destruct (Z.ltb_spec i 0) as [F|_]; [lia|].
  destruct (Z.leb_spec (len l) i) as [F|_]; [lia|]. cbn [orb].
  assert (Hn : (Z.to_nat i < List.length l)%nat) by (unfold len in Hhi; lia).
  rewrite (nth_error_nth' l d Hn). reflexivity.
Qed.

End HostFacts.

(** ** One call of [next] *)

Section Step.
Context {T : Type}.
Implicit Types (self : t T) (d : T).

Lemma target_in_range self : 0 < _length self ->
  0 <= (_index self + _direction self) mod _length self < _length self.
Proof. intro H. apply Z.mod_pos_bound, H. Qed.

(** Over a non-empty list [next] succeeds whatever the cursor was. *)
Lemma next_spec self d : nonempty self ->
  let i := (_index self + _direction self) mod _length self in
  next self = Ok (item (_elements self) i d, at_index self i).
Proof.
  intros [Hlen Hpos] i. unfold next.
  rewrite (mod_pos _ _ Hpos). cbn [bind _elements _index].
  rewrite (getitem_in_bounds _ _ d).
  - reflexivity.
  - rewrite <- Hlen. apply target_in_range, Hpos.
Qed.

Lemma at_index_nonempty self i : nonempty self -> nonempty (at_index self i).
Proof. intro H. exact H. Qed.

Lemma item_In (l : list T) i d : 0 <= i < len l -> In (item l i d) l.
Proof.
  intros [Hlo Hhi]. unfold item. apply nth_In. unfold len in Hhi. lia.
Qed.

Lemma nonempty_has_element self : nonempty self -> exists d : T, True.
Proof.
  intros [Hlen Hpos]. destruct (_elements self) as [|d l] eqn:E.
  - rewrite Hlen in Hpos. cbn in Hpos. lia.
  - now exists d.
Qed.

Lemma next_ok self : nonempty self ->
  exists x,
    next self =
      Ok (x, at_index self ((_index self + _direction self) mod _length self))
    /\ In x (_elements self).
Proof.
  intro Hne. destruct (nonempty_has_element self Hne) as [d _].
  eexists. split; [apply (next_spec self d Hne)|].
  apply item_In. destruct Hne as [<- Hpos]. now apply target_in_range.
Qed.

(** C1: over a non-empty list of length [N] with the cursor in [[0, N)],
    [next] first moves the cursor to [(index + direction) mod N], a value
    of [[0, N)], and then returns the element at the moved cursor; nothing
    else of the instance changes. *)
Theorem next_moves_then_reads self :
  nonempty self -> in_range self ->
  exists x self',
    next self = Ok (x, self') /\
    _index self' = (_index self + _direction self) mod _length self /\
    0 <= _index self' < _length self /\
    nth_error (_elements self) (Z.to_nat (_index self')) = Some x /\
    getitem (_elements self') (_index self') = Ok x /\
    _elements self' = _elements self /\
    _direction self' = _direction self /\
    _length self' = _length self.
Proof.
  intros Hne _.
  assert (Hb := target_in_range self (proj2 Hne)).
  set (i := (_index self + _direction self) mod _length self) in *.
  assert (Hn : (Z.to_nat i < List.length (_elements self))%nat).
  { destruct Hne as [Hlen _]. unfold len in Hlen. lia. }
  destruct (nth_error (_elements self) (Z.to_nat i)) as [x|] eqn:E.
  2:{ apply nth_error_None in E. lia. }
  exists x, (at_index self i).
  rewrite (next_spec self x Hne). fold i. unfold item.
  rewrite (nth_error_nth _ _ x E). cbn [at_index _index _elements _direction _length].
  repeat split; try tauto; try assumption.
  rewrite (getitem_in_bounds _ _ x).
  - now rewrite (nth_error_nth _ _ x E).
  - destruct Hne as [<- _]. exact Hb.
Qed.

End Step.

Lemma next_moves_then_reads_witness :
  nonempty (Build rick_and_morty 0 1 2) /\
  in_range (Build rick_and_morty 0 1 2) /\
  exists x self',
    next (Build rick_and_morty 0 1 2) = Ok (x, self') /\
    _index self' = (0 + 1) mod 2 /\
    0 <= _index self' < 2 /\
    nth_error rick_and_morty (Z.to_nat (_index self')) = Some x /\
    getitem (_elements self') (_index self') = Ok x /\
    _elements self' = rick_and_morty /\
    _direction self' = 1 /\
    _length self' = 2.
Proof.
  assert (Hne : nonempty (Build rick_and_morty 0 1 2)).
  { split; reflexivity. }
  assert (Hin : in_range (Build rick_and_morty 0 1 2)).
  { unfold in_range; cbn; lia. }
  split; [exact Hne|]. split; [exact Hin|].
  exact (next_moves_then_reads (Build rick_and_morty 0 1 2) Hne Hin).
Defined.

(** ** Construction *)

Section Construction.
Context {T : Type}.
Implicit Types (elements : list T) (starting_index : Z).

Lemma init_spec elements starting_index :
  init elements starting_index =
  Ok (Build elements starting_index 1 (len elements)).
Proof. reflexivity. Qed.

Lemma init_nonempty elements starting_index :
  elements <> [] ->
  nonempty (Build elements starting_index 1 (len elements)).
Proof.
  intro H. split; [reflexivity|]. cbn [_length]. now apply len_pos_iff.
Qed.

(** C2, as the code has it: [__init__] validates nothing, so constructing
    over the empty list succeeds for every starting index and records the
    length 0; what fails is every later [next], with the division by zero
    of the modulo, whichever direction has been set. *)
Theorem init_empty_succeeds starting_index :
  init (@nil T) starting_index = Ok (Build [] starting_index 1 0) /\
  failed (init (@nil T) starting_index) = false /\
  (self <- init (@nil T) starting_index ;; next self)
    = Raise ZeroDivisionError /\
  (self <- init (@nil T) starting_index ;;
   self' <- set_direction_reverse self ;; next self')
    = Raise ZeroDivisionError.
Proof. repeat split. Qed.

(** C3, as the code has it: over a non-empty list of length [N] a starting
    index outside [[0, N)] is accepted and stored as given, so the instance
    starts with its cursor out of range, in the forward direction. *)
Theorem init_out_of_range_succeeds elements starting_index :
  elements <> [] ->
  ~ (0 <= starting_index < len elements) ->
  exists self,
    init elements starting_index = Ok self /\
    failed (init elements starting_index) = false /\
    _elements self = elements /\
    _index self = starting_index /\
    _direction self = 1 /\
    nonempty self /\
    ~ in_range self.
Proof.
  intros Hne Hout. eexists. split; [apply init_spec|].
  cbn [failed init _elements _index _direction].
  repeat split; try (now apply len_pos_iff).
  unfold in_range. cbn [_index _length]. exact Hout.
Qed.

End Construction.

(** Constructing over the empty list does not fail. *)
Lemma init_empty_does_not_fail :
  failed (init (@nil string) 0) = false.
Proof. reflexivity. Qed.

(** Constructing with the starting index one past the end does not fail. *)
Lemma init_one_past_end_does_not_fail :
  len rick_and_morty = 2 /\ failed (init rick_and_morty 2) = false.
Proof. split; reflexivity. Qed.

Lemma init_out_of_range_succeeds_witness :
  rick_and_morty <> [] /\
  ~ (0 <= 2 < len rick_and_morty) /\
  exists self,
    init rick_and_morty 2 = Ok self /\
    failed (init rick_and_morty 2) = false /\
    _elements self = rick_and_morty /\
    _index self = 2 /\
    _direction self = 1 /\
    nonempty self /\
    ~ in_range self.
Proof.
  assert (H1 : rick_and_morty <> []) by discriminate.
  assert (H2 : ~ (0 <= 2 < len rick_and_morty)) by (cbn; lia).
  split; [exact H1|]. split; [exact H2|].
  exact (init_out_of_range_succeeds rick_and_morty 2 H1 H2).
Defined.

(** ** Sequences of calls *)

Section Runs.
Context {T : Type}.
Implicit Types (self : t T) (cs : list call).

(** Over a non-empty list every call succeeds; it keeps the list and the
    recorded length, keeps a cursor that is in range in range, and hands
    back elements of the list only. *)
Lemma perform_ok c self : nonempty self ->
  exists out self',
    perform c self = Ok (out, self') /\
    nonempty self' /\
    _elements self' = _elements self /\
    (in_range self -> in_range self') /\
    Forall (fun x => In x (_elements self)) out.
Proof.
  intro Hne. destruct c; cbn [perform].
  - destruct (next_ok self Hne) as (x & -> & Hx). cbn [bind].
    do 2 eexists. split; [reflexivity|].
    split; [exact Hne|]. split; [reflexivity|]. split.
    + intros _. unfold in_range. cbn [at_index _index _length].
      apply Z.mod_pos_bound, Hne.
    + now constructor.
  - do 2 eexists. split; [reflexivity|].
    split; [exact Hne|]. split; [reflexivity|]. split; [exact (fun H => H)|].
    constructor.
  - do 2 eexists. split; [reflexivity|].
    split; [exact Hne|]. split; [reflexivity|]. split; [exact (fun H => H)|].
    constructor.
Qed.

Lemma run_ok cs : forall self, nonempty self ->
  exists out self',
    run cs self = Ok (out, self') /\
    nonempty self' /\
    _elements self' = _elements self /\
    (in_range self -> in_range self') /\
    Forall (fun x => In x (_elements self)) out.
Proof.
  induction cs as [|c cs IH]; intros self Hne; cbn [run].
  - exists [], self. split; [reflexivity|].
    split; [exact Hne|]. split; [reflexivity|]. split; [exact (fun H => H)|].
    constructor.
  - destruct (perform_ok c self Hne) as (xs & s1 & -> & Hne1 & He1 & Hr1 & Hx).
    cbn [bind].
    destruct (IH s1 Hne1) as (ys & s2 & -> & Hne2 & He2 & Hr2 & Hy).
    cbn [bind]. do 2 eexists. split; [reflexivity|].
    split; [exact Hne2|]. split; [congruence|]. split; [auto|].
    apply Forall_app. split; [exact Hx|]. now rewrite <- He1.
Qed.

(** Calls of the two setters only. *)
Lemma run_setters cs : forall self,
  exists self',
    run (filter is_setter cs) self = Ok ([], self') /\
    _index self' = _index self /\
    _elements self' = _elements self /\
    _length self' = _length self.
Proof.
  induction cs as [|c cs IH]; intro self; cbn [filter].
  - now exists self.
  - destruct c; cbn [is_setter]; [apply IH| |];
      cbn [run perform set_direction_forward set_direction_reverse bind];
      match goal with |- context [run _ ?s1] =>
        destruct (IH s1) as (s2 & -> & Hi & He & Hl) end;
      exists s2; auto.
Qed.

(** C9: the two setters touch the direction only; the cursor, the list and
    the recorded length are as before, after one setter call and after any
    sequence of setter calls ([filter is_setter cs] ranges over all of
    them).  So the cursor moves in [next] only. *)
Theorem setters_change_direction_only self :
  set_direction_forward self =
    Ok (Build (_elements self) (_index self) 1 (_length self)) /\
  set_direction_reverse self =
    Ok (Build (_elements self) (_index self) (-1) (_length self)) /\
  forall cs, exists self',
    run (filter is_setter cs) self = Ok ([], self') /\
    _index self' = _index self /\
    _elements self' = _elements self /\
    _length self' = _length self.
Proof.
  split; [reflexivity|]. split; [reflexivity|].
  intro cs. apply run_setters.
Qed.

(** C7: from the cursor [i], one forward [next], then
    [set_direction_reverse], then one [next] hands back the element at [i]
    and leaves the cursor at [i] again. *)
Theorem forward_then_reverse_returns self (d : T) :
  nonempty self -> in_range self -> _direction self = 1 ->
  exists x self',
    run [Next; SetDirectionReverse; Next] self =
      Ok ([x; item (_elements self) (_index self) d], self') /\
    _index self' = _index self.
Proof.
  intros Hne Hin Hdir. cbn [run perform].
  rewrite (next_spec self d Hne). cbn [bind set_direction_reverse].
  set (j := (_index self + _direction self) mod _length self).
  cbn [at_index _elements _index _length].
  set (self2 := Build (_elements self) j (-1) (_length self)).
  assert (Hne2 : nonempty self2) by exact Hne.
  rewrite (next_spec self2 d Hne2). cbn [bind app].
  assert (Hback : (_index self2 + _direction self2) mod _length self2
                  = _index self).
  { cbn [self2 _index _direction _length]. unfold j. rewrite Hdir.
    rewrite Zplus_mod_idemp_l.
    replace (_index self + 1 + -1) with (_index self) by lia.
    apply Z.mod_small, Hin. }
  rewrite Hback. do 2 eexists. split; reflexivity.
Qed.

(** C8: over a non-empty list with the cursor in range [next] raises
    nothing: the modulo divides by a positive length and the subscript it
    yields is within the list.  The same holds for every sequence of calls
    after it. *)
Theorem next_never_raises self :
  nonempty self -> in_range self ->
  failed (next self) = false /\
  failed (mod_ (_index self + _direction self) (_length self)) = false /\
  (forall i, mod_ (_index self + _direction self) (_length self) = Ok i ->
             failed (getitem (_elements self) i) = false) /\
  forall cs, failed (run cs self) = false.
Proof.
  intros Hne _.
  destruct (next_ok self Hne) as (x & Hx & _).
  destruct (nonempty_has_element self Hne) as [d _].
  split; [now rewrite Hx|].
  rewrite (mod_pos _ _ (proj2 Hne)).
  split; [reflexivity|]. split.
  - intros i [= <-]. rewrite (getitem_in_bounds _ _ d); [reflexivity|].
    destruct Hne as [<- Hpos]. now apply target_in_range.
  - intro cs. destruct (run_ok cs self Hne) as (out & s' & -> & _).
    reflexivity.
Qed.

(** C4: after a construction over a non-empty list of length [N] with a
    starting index of [[0, N)], whatever calls of [next] and of the two
    setters have been made ([pre]), the cursor is in [[0, N)], the [next]
    that follows succeeds, hands back an element of the list and leaves the
    cursor in [[0, N)]. *)
Theorem index_stays_in_range (elements : list T) (starting_index : Z) cs :
  elements <> [] -> 0 <= starting_index < len elements ->
  exists self0 out self x self',
    init elements starting_index = Ok self0 /\
    run cs self0 = Ok (out, self) /\
    _length self = len elements /\
    0 <= _index self < len elements /\
    next self = Ok (x, self') /\
    _length self' = len elements /\
    0 <= _index self' < len elements /\
    In x elements /\
    Forall (fun y => In y elements) out.
Proof.
  intros Hne Hin. rewrite init_spec.
  set (self0 := Build elements starting_index 1 (len elements)).
  assert (Hne0 : nonempty self0) by now apply init_nonempty.
  assert (Hin0 : in_range self0) by exact Hin.
  destruct (run_ok cs self0 Hne0) as (out & s & Hrun & Hne1 & He1 & Hr1 & Hout).
  specialize (Hr1 Hin0).
  change (_elements s = elements) in He1.
  change (Forall (fun y => In y elements) out) in Hout.
  destruct (next_ok s Hne1) as (x & Hx & HIn).
  assert (Hlen : _length s = len elements).
  { destruct Hne1 as [-> _]. now rewrite He1. }
  exists self0, out, s, x. eexists.
  split; [reflexivity|]. split; [exact Hrun|]. split; [exact Hlen|].
  split; [now rewrite <- Hlen|]. split; [exact Hx|].
  cbn [at_index _length _index]. split; [exact Hlen|]. split.
  - rewrite <- Hlen. apply Z.mod_pos_bound, Hne1.
  - split; [now rewrite <- He1|exact Hout].
Qed.

End Runs.

(** ** Cursors that differ by a multiple of the length *)

Section CursorModulo.
Context {T : Type}.
Implicit Types (self : t T) (cs : list call).

Lemma outputs_bind (xs : list T) (r : result (list T * t T)) :
  outputs ('(ys, self2) <- r ;; Ok (xs ++ ys, self2)) =
  (ys <- outputs r ;; Ok (xs ++ ys)).
Proof. destruct r as [[ys s2]|e]; reflexivity. Qed.

Lemma same_cursor_mod_refl self : same_cursor_mod self self.
Proof. repeat split. Qed.

(** One call keeps two such instances in step, and [next] makes them
    equal. *)
Lemma perform_same_cursor_mod c self1 self2 :
  nonempty self1 -> same_cursor_mod self1 self2 ->
  exists out self1' self2',
    perform c self1 = Ok (out, self1') /\
    perform c self2 = Ok (out, self2') /\
    nonempty self1' /\
    same_cursor_mod self1' self2' /\
    (c = Next -> self1' = self2').
Proof.
  intros Hne (He & Hd & Hl & Hi).
  assert (Hne2 : nonempty self2).
  { unfold nonempty. rewrite <- He, <- Hl. exact Hne. }
  destruct c; cbn [perform].
  - destruct (nonempty_has_element self1 Hne) as [d _].
    rewrite (next_spec self1 d Hne), (next_spec self2 d Hne2). cbn [bind].
    assert (E : (_index self2 + _direction self2) mod _length self2
                = (_index self1 + _direction self1) mod _length self1).
    { rewrite <- Hd, <- Hl.
      rewrite <- (Zplus_mod_idemp_l (_index self2)), <- Hi.
      now rewrite Zplus_mod_idemp_l. }
    rewrite E, <- He. unfold at_index. rewrite <- He, <- Hd, <- Hl.
    do 3 eexists. split; [reflexivity|]. split; [reflexivity|].
    split; [exact Hne|]. split; [apply same_cursor_mod_refl|reflexivity].
  - do 3 eexists. split; [reflexivity|]. split; [reflexivity|].
    split; [exact Hne|]. split; [|discriminate].
    repeat split; assumption.
  - do 3 eexists. split; [reflexivity|]. split; [reflexivity|].
    split; [exact Hne|]. split; [|discriminate].
    repeat split; assumption.
Qed.

Lemma run_same_cursor_mod cs : forall self1 self2,
  nonempty self1 -> same_cursor_mod self1 self2 ->
  outputs (run cs self1) = outputs (run cs self2) /\
  (In Next cs -> run cs self1 = run cs self2).
Proof.
  induction cs as [|c cs IH]; intros self1 self2 Hne Hsame; cbn [run].
  - split; [reflexivity|]. intros [].
  - destruct (perform_same_cursor_mod c self1 self2 Hne Hsame)
      as (out & s1 & s2 & -> & -> & Hne1 & Hsame1 & Hnext).
    cbn [bind]. rewrite !outputs_bind.
    destruct (IH s1 s2 Hne1 Hsame1) as [Hout Hrun]. split.
    + now rewrite Hout.
    + intros [E|Hin].
      * now rewrite (Hnext E).
      * now rewrite (Hrun Hin).
Qed.

(** C10: over a non-empty list of length [N] the construction succeeds for
    every integer starting index [k]; the first [next] moves the cursor to
    [(k + direction) mod N], a value of [[0, N)]; and the instance cannot
    be told from the one constructed with [k mod N]: every sequence of
    calls hands back the same values from both, and leaves both in the same
    state as soon as it contains a [next]. *)
Theorem init_any_starting_index (elements : list T) (k : Z) :
  elements <> [] ->
  exists self self_mod,
    init elements k = Ok self /\
    init elements (k mod len elements) = Ok self_mod /\
    (exists x self',
       next self = Ok (x, self') /\
       _index self' = (k + _direction self) mod len elements /\
       0 <= _index self' < len elements) /\
    (forall cs, failed (run cs self) = false) /\
    (forall cs, outputs (run cs self) = outputs (run cs self_mod)) /\
    (forall cs, In Next cs -> run cs self = run cs self_mod).
Proof.
  intro Hne. rewrite !init_spec.
  set (self := Build elements k 1 (len elements)).
  set (self_mod := Build elements (k mod len elements) 1 (len elements)).
  assert (Hne0 : nonempty self) by now apply init_nonempty.
  assert (Hsame : same_cursor_mod self self_mod).
  { repeat split. cbn [self self_mod _index _length].
    now rewrite Z.mod_mod by (apply len_pos_iff in Hne; lia). }
  exists self, self_mod. split; [reflexivity|]. split; [reflexivity|].
  split; [|split; [|split]].
  - destruct (next_ok self Hne0) as (x & Hx & _).
    do 2 eexists. split; [exact Hx|]. cbn [at_index _index self _direction _length].
    split; [reflexivity|]. apply Z.mod_pos_bound. now apply len_pos_iff.
  - intro cs. destruct (run_ok cs self Hne0) as (out & s' & -> & _).
    reflexivity.
  - intro cs. apply (run_same_cursor_mod cs self self_mod Hne0 Hsame).
  - intro cs. apply (run_same_cursor_mod cs self self_mod Hne0 Hsame).
Qed.

End CursorModulo.

(** ** Traversals in one direction *)

Section Traversals.
Context {T : Type}.
Implicit Types (self : t T) (d : T).

(** The [k]-th of [n] consecutive calls hands back the element [k] steps
    away from the cursor, in the direction of the instance. *)
Lemma next_n_spec n : forall self d, nonempty self ->
  next_n n self =
    Ok (map (fun k => item (_elements self)
                       ((_index self + _direction self * Z.of_nat k)
                          mod _length self) d)
            (seq 1 n),
        match n with
        | O => self
        | S _ => at_index self ((_index self + _direction self * Z.of_nat n)
                                  mod _length self)
        end).
Proof.
  induction n as [|n IH]; intros self d Hne; [reflexivity|].
  cbn [next_n]. rewrite (next_spec self d Hne). cbn [bind].
  set (j := (_index self + _direction self) mod _length self).
  rewrite (IH (at_index self j) d (at_index_nonempty self j Hne)).
  cbn [bind at_index _elements _index _direction _length].
  f_equal. f_equal.
  - cbn [seq map]. f_equal.
    + unfold j. now rewrite Z.mul_1_r.
    + rewrite <- (seq_shift n 1), map_map. apply map_ext. intro k.
      unfold j. rewrite Zplus_mod_idemp_l. do 2 f_equal.
      rewrite Nat2Z.inj_succ. ring.
  - destruct n as [|n].
    + unfold at_index, j. now rewrite Z.mul_1_r.
    + unfold j. rewrite Zplus_mod_idemp_l, (Nat2Z.inj_succ (S n)).
      replace (_index self + _direction self * Z.succ (Z.of_nat (S n)))
        with (_index self + _direction self + _direction self * Z.of_nat (S n))
        by ring.
      reflexivity.
Qed.

Lemma forward_traversal_spec (elements : list T) i n d :
  elements <> [] ->
  forward_traversal elements i n =
    Ok (map (fun k => item elements ((i + Z.of_nat k) mod len elements) d)
            (seq 1 n),
        match n with
        | O => Build elements i 1 (len elements)
        | S _ => Build elements ((i + Z.of_nat n) mod len elements) 1
                   (len elements)
        end).
Proof.
  intro Hne. unfold forward_traversal. rewrite init_spec. cbn [bind].
  rewrite (next_n_spec n _ d (init_nonempty elements i Hne)).
  cbn [_elements _index _direction _length at_index].
  apply f_equal, f_equal2.
  - apply map_ext. intro k. now rewrite Z.mul_1_l.
  - destruct n; [reflexivity|]. now rewrite Z.mul_1_l.
Qed.

Lemma reverse_traversal_spec (elements : list T) i n d :
  elements <> [] ->
  reverse_traversal elements i n =
    Ok (map (fun k => item elements ((i - Z.of_nat k) mod len elements) d)
            (seq 1 n),
        match n with
        | O => Build elements i (-1) (len elements)
        | S _ => Build elements ((i - Z.of_nat n) mod len elements) (-1)
                   (len elements)
        end).
Proof.
  intro Hne. unfold reverse_traversal. rewrite init_spec.
  cbn [bind set_direction_reverse _elements _index _length].
  assert (Hne' : nonempty (Build elements i (-1) (len elements)))
    by exact (init_nonempty elements i Hne).
  rewrite (next_n_spec n _ d Hne').
  cbn [_elements _index _direction _length at_index].
  assert (E : forall k, i + -1 * Z.of_nat k = i - Z.of_nat k)
    by (intro k; ring).
  apply f_equal, f_equal2.
  - apply map_ext. intro k. now rewrite E.
  - destruct n; [reflexivity|]. now rewrite E.
Qed.

Lemma length_succ (elements : list T) :
  elements <> [] -> exists m, List.length elements = S m.
Proof.
  destruct elements as [|x l]; [congruence|]. intros _. now exists (List.length l).
Qed.

(** C5: over a non-empty list [S] of length [N], from a starting index [i]
    of [[0, N)], [N] forward calls of [next] hand back
    [S[(i+1)%N], ..., S[(i+N)%N]], the last of which is [S[i]], and leave
    the instance where it started.  On [["rick"; "morty"]] from index 0,
    four forward calls hand back ["morty"], ["rick"], ["morty"],
    ["rick"]. *)
Theorem forward_traversal_cycle :
  (forall (elements : list T) i d,
     elements <> [] -> 0 <= i < len elements ->
     exists outs self,
       init elements i = Ok self /\
       forward_traversal elements i (List.length elements) = Ok (outs, self) /\
       outs = map (fun k => item elements
                              ((i + Z.of_nat k) mod len elements) d)
                  (seq 1 (List.length elements)) /\
       last outs d = item elements i d) /\
  forward_traversal rick_and_morty 0 4 =
    Ok (["morty"; "rick"; "morty"; "rick"]%string, Build rick_and_morty 0 1 2).
Proof.
  split; [|reflexivity].
  intros elements i d Hne Hin.
  destruct (length_succ elements Hne) as [m Hm].
  assert (Hback : (i + Z.of_nat (S m)) mod len elements = i).
  { replace (Z.of_nat (S m)) with (1 * len elements)
      by (unfold len; rewrite Hm; ring).
    rewrite Z.mod_add by lia. now apply Z.mod_small. }
  rewrite (forward_traversal_spec elements i _ d Hne), Hm, Hback.
  do 2 eexists. split; [apply init_spec|]. split; [reflexivity|].
  split; [reflexivity|].
  rewrite seq_S, map_app. cbn [map]. rewrite last_last.
  change (1 + m)%nat with (S m). now rewrite Hback.
Qed.

End Traversals.

(** ** The example of the module, run *)

Example rick_and_morty_forever :
  forward_traversal rick_and_morty 0 6 =
    Ok (["morty"; "rick"; "morty"; "rick"; "morty"; "rick"]%string,
        Build rick_and_morty 0 1 2).
Proof. reflexivity. Qed.

Example rick_and_morty_reversed :
  (self <- init rick_and_morty 0 ;;
   run [Next; SetDirectionReverse; Next; Next] self) =
    Ok (["morty"; "rick"; "morty"]%string, Build rick_and_morty 1 (-1) 2).
Proof. reflexivity. Qed.

Example rick_and_morty_from_one_past_end :
  forward_traversal rick_and_morty 2 3 =
    Ok (["morty"; "rick"; "morty"]%string, Build rick_and_morty 1 1 2).
Proof. reflexivity. Qed.

Example nobody_forever :
  forward_traversal (@nil string) 0 1 = Raise ZeroDivisionError.
Proof. reflexivity. Qed.

(** C6: on the list of the module's example, from index 0, the forward
    calls of [next] hand back ["morty"] and then ["rick"], where the
    module's documentation shows ["rick"] and then ["morty"]: [next] moves
    the cursor before it reads, so the element at the starting index comes
    last instead of first.  The reverse calls hand back ["morty"] and then
    ["rick"], as documented.  So the reverse values are not the forward
    values backwards; over three elements, where the two directions
    differ, they are not either. *)
Theorem reverse_traversal_is_not_reversed_forward :
  (forward_traversal rick_and_morty 0 2 =
     Ok (["morty"; "rick"]%string, Build rick_and_morty 0 1 2) /\
   reverse_traversal rick_and_morty 0 2 =
     Ok (["morty"; "rick"]%string, Build rick_and_morty 0 (-1) 2) /\
   ["morty"; "rick"]%string <> rev ["morty"; "rick"]%string) /\
  (forward_traversal ["rick"; "morty"; "summer"]%string 0 3 =
     Ok (["morty"; "summer"; "rick"]%string,
         Build ["rick"; "morty"; "summer"]%string 0 1 3) /\
   reverse_traversal ["rick"; "morty"; "summer"]%string 0 3 =
     Ok (["summer"; "morty"; "rick"]%string,
         Build ["rick"; "morty"; "summer"]%string 0 (-1) 3) /\
   ["summer"; "morty"; "rick"]%string
     <> rev ["morty"; "summer"; "rick"]%string).
Proof.
  split; (split; [reflexivity|]); (split; [reflexivity|]); discriminate.
Qed.

Lemma forward_then_reverse_returns_witness :
  nonempty (Build rick_and_morty 0 1 2) /\
  in_range (Build rick_and_morty 0 1 2) /\
  exists x self',
    run [Next; SetDirectionReverse; Next] (Build rick_and_morty 0 1 2) =
      Ok ([x; item rick_and_morty 0 EmptyString], self') /\
    _index self' = 0.
Proof.
  assert (Hne : nonempty (Build rick_and_morty 0 1 2)) by (split; reflexivity).
  assert (Hin : in_range (Build rick_and_morty 0 1 2))
    by (unfold in_range; cbn; lia).
  split; [exact Hne|]. split; [exact Hin|].
  exact (forward_then_reverse_returns (Build rick_and_morty 0 1 2) EmptyString
           Hne Hin eq_refl).
Defined.

Lemma next_never_raises_witness :
  nonempty (Build rick_and_morty 1 (-1) 2) /\
  in_range (Build rick_and_morty 1 (-1) 2) /\
  failed (next (Build rick_and_morty 1 (-1) 2)) = false /\
  failed (mod_ (1 + -1) 2) = false /\
  (forall i, mod_ (1 + -1) 2 = Ok i ->
             failed (getitem rick_and_morty i) = false) /\
  forall cs, failed (run cs (Build rick_and_morty 1 (-1) 2)) = false.
Proof.
  assert (Hne : nonempty (Build rick_and_morty 1 (-1) 2))
    by (split; reflexivity).
  assert (Hin : in_range (Build rick_and_morty 1 (-1) 2))
    by (unfold in_range; cbn; lia).
  split; [exact Hne|]. split; [exact Hin|].
  exact (next_never_raises (Build rick_and_morty 1 (-1) 2) Hne Hin).
Defined.

Lemma index_stays_in_range_witness :
  rick_and_morty <> [] /\
  0 <= 1 < len rick_and_morty /\
  exists self0 out self x self',
    init rick_and_morty 1 = Ok self0 /\
    run [Next; SetDirectionReverse; Next; Next] self0 = Ok (out, self) /\
    _length self = len rick_and_morty /\
    0 <= _index self < len rick_and_morty /\
    next self = Ok (x, self') /\
    _length self' = len rick_and_morty /\
    0 <= _index self' < len rick_and_morty /\
    In x rick_and_morty /\
    Forall (fun y => In y rick_and_morty) out.
Proof.
  assert (H1 : rick_and_morty <> []) by discriminate.
  assert (H2 : 0 <= 1 < len rick_and_morty) by (cbn; lia).
  split; [exact H1|]. split; [exact H2|].
  exact (index_stays_in_range rick_and_morty 1
           [Next; SetDirectionReverse; Next; Next] H1 H2).
Defined.

Lemma init_any_starting_index_witness :
  rick_and_morty <> [] /\
  exists self self_mod,
    init rick_and_morty (-3) = Ok self /\
    init rick_and_morty (-3 mod len rick_and_morty) = Ok self_mod /\
    (exists x self',
       next self = Ok (x, self') /\
       _index self' = (-3 + _direction self) mod len rick_and_morty /\
       0 <= _index self' < len rick_and_morty) /\
    (forall cs, failed (run cs self) = false) /\
    (forall cs, outputs (run cs self) = outputs (run cs self_mod)) /\
    (forall cs, In Next cs -> run cs self = run cs self_mod).
Proof.
  assert (H1 : rick_and_morty <> []) by discriminate.
  split; [exact H1|].
  exact (init_any_starting_index rick_and_morty (-3) H1).
Defined.

Lemma forward_traversal_cycle_witness :
  rick_and_morty <> [] /\
  0 <= 1 < len rick_and_morty /\
  exists outs self,
    init rick_and_morty 1 = Ok self /\
    forward_traversal rick_and_morty 1 2 = Ok (outs, self) /\
    outs = map (fun k => item rick_and_morty ((1 + Z.of_nat k) mod 2) EmptyString)
               (seq 1 2) /\
    last outs EmptyString = item rick_and_morty 1 EmptyString.
Proof.
  assert (H1 : rick_and_morty <> []) by discriminate.
  assert (H2 : 0 <= 1 < len rick_and_morty) by (cbn; lia).
  split; [exact H1|]. split; [exact H2|].
  exact (proj1 (@forward_traversal_cycle string) rick_and_morty 1 EmptyString
           H1 H2).
Defined.

(** ** The cursor is a walk on the integers, read modulo the length *)

Section Walk.
Context {T : Type}.
Implicit Types (self : t T) (cs : list call) (d : T).

Lemma instance_eta self :
  Build (_elements self) (_index self) (_direction self) (_length self) = self.
Proof. now destruct self. Qed.

Lemma run_walk_from cs d : forall self i,
  nonempty self -> i mod _length self = _index self ->
  run cs self =
    let '(ps, j, dir) := walk cs i (_direction self) in
    Ok (map (fun p => item (_elements self) (p mod _length self) d) ps,
        Build (_elements self) (j mod _length self) dir (_length self)).
Proof.
  induction cs as [|c cs IH]; intros self i Hne Hi.
  - cbn [run walk map]. rewrite Hi. now rewrite instance_eta.
  - destruct c; cbn [run perform walk].
    + rewrite (next_spec self d Hne). cbn [bind].
      assert (E : (_index self + _direction self) mod _length self
                  = (i + _direction self) mod _length self).
      { rewrite <- Hi. now rewrite Zplus_mod_idemp_l. }
      rewrite E.
      rewrite (IH (at_index self ((i + _direction self) mod _length self))
                  (i + _direction self) Hne eq_refl).
      cbn [at_index _elements _direction _length].
      destruct (walk cs (i + _direction self) (_direction self))
        as [[ps j] dir].
      reflexivity.
    + cbn [set_direction_forward bind].
      rewrite (IH (Build (_elements self) (_index self) 1 (_length self))
                  i Hne Hi).
      cbn [_elements _direction _length].
      destruct (walk cs i 1) as [[ps j] dir]. reflexivity.
    + cbn [set_direction_reverse bind].
      rewrite (IH (Build (_elements self) (_index self) (-1) (_length self))
                  i Hne Hi).
      cbn [_elements _direction _length].
      destruct (walk cs i (-1)) as [[ps j] dir]. reflexivity.
Qed.

(** X1: whatever calls are made on an instance over a non-empty list with its
    cursor in range, the values handed back are the elements at the
    positions of the unbounded walk, each reduced modulo the length, and
    the instance ends at the walk's last position, reduced likewise, with
    the walk's last direction. *)
Theorem run_follows_walk self cs d :
  nonempty self -> in_range self ->
  run cs self =
    let '(ps, j, dir) := walk cs (_index self) (_direction self) in
    Ok (map (fun p => item (_elements self) (p mod _length self) d) ps,
        Build (_elements self) (j mod _length self) dir (_length self)).
Proof.
  intros Hne Hin. apply run_walk_from; [exact Hne|].
  now apply Z.mod_small.
Qed.

End Walk.

Lemma run_follows_walk_witness :
  nonempty (Build rick_and_morty 0 1 2) /\
  in_range (Build rick_and_morty 0 1 2) /\
  run [Next; Next; Next; SetDirectionReverse; Next]
      (Build rick_and_morty 0 1 2) =
    Ok (map (fun p => item rick_and_morty (p mod 2) EmptyString) [1; 2; 3; 2],
        Build rick_and_morty (2 mod 2) (-1) 2).
Proof.
  assert (Hne : nonempty (Build rick_and_morty 0 1 2)) by (split; reflexivity).
  assert (Hin : in_range (Build rick_and_morty 0 1 2))
    by (unfold in_range; cbn; lia).
  split; [exact Hne|]. split; [exact Hin|].
  exact (run_follows_walk (Build rick_and_morty 0 1 2)
           [Next; Next; Next; SetDirectionReverse; Next] EmptyString Hne Hin).
Defined.

(** ** The recorded length

    [__init__] reads the length of the list once and [next] wraps the
    cursor by that recorded length.  The instances below are those whose
    list no longer has the recorded length. *)

Section RecordedLength.
Context {T : Type}.
Implicit Types (self : t T) (cs : list call).

(** X8: with the recorded length 0 (the list was empty at construction) the
    setters still succeed, but a sequence of calls raises
    [ZeroDivisionError] as soon as it contains a [next], whatever the
    cursor, the direction and the present content of the list. *)
Theorem run_empty_raises cs : forall self,
  _length self = 0 -> In Next cs ->
  run cs self = Raise ZeroDivisionError.
Proof.
  induction cs as [|c cs IH]; intros self Hlen Hin; [destruct Hin|].
  destruct c; cbn [run perform].
  - unfold next. rewrite Hlen. reflexivity.
  - destruct Hin as [E|Hin]; [discriminate|].
    cbn [set_direction_forward bind]. now rewrite IH.
  - destruct Hin as [E|Hin]; [discriminate|].
    cbn [set_direction_reverse bind]. now rewrite IH.
Qed.

(** X9: when the list has become shorter than the recorded length, [next]
    raises [IndexError] whenever the wrapped cursor falls at or past the
    end of the list. *)
Theorem next_past_end_raises self :
  0 < _length self ->
  len (_elements self) <= (_index self + _direction self) mod _length self ->
  next self = Raise IndexError.
Proof.
  intros Hpos Hpast. unfold next. rewrite (mod_pos _ _ Hpos).
  cbn [bind _elements _index]. unfold getitem.
  set (j := (_index self + _direction self) mod _length self) in *.
  assert (Hj : 0 <= j) by (apply Z.mod_pos_bound, Hpos).
  destruct (Z.ltb_spec j 0) as [F|_]; [lia|].
  destruct (Z.ltb_spec j 0) as [F|_]; [lia|].
  destruct (Z.leb_spec (len (_elements self)) j) as [_|F]; [|lia].
  reflexivity.
Qed.

Lemma perform_within_recorded c self :
  0 < _length self <= len (_elements self) ->
  exists out self',
    perform c self = Ok (out, self') /\
    _elements self' = _elements self /\
    _length self' = _length self /\
    Forall (fun x => In x (firstn (Z.to_nat (_length self)) (_elements self)))
           out.
Proof.
  intros [Hpos Hle]. destruct c; cbn [perform].
  - destruct (_elements self) as [|d l] eqn:El; [cbn in Hle; lia|].
    rewrite <- El in *. unfold next. rewrite (mod_pos _ _ Hpos).
    cbn [bind _elements _index].
    set (j := (_index self + _direction self) mod _length self).
    assert (Hj : 0 <= j < _length self) by (apply Z.mod_pos_bound, Hpos).
    rewrite (getitem_in_bounds _ _ d) by lia. cbn [bind].
    do 2 eexists. split; [reflexivity|]. split; [reflexivity|].
    split; [reflexivity|]. constructor; [|constructor].
    assert (Hn : (Z.to_nat j < Z.to_nat (_length self))%nat) by lia.
    assert (E : nth (Z.to_nat j) (firstn (Z.to_nat (_length self))
                                    (_elements self)) d
                = nth (Z.to_nat j) (_elements self) d).
    { rewrite nth_firstn.
      destruct (Nat.ltb_spec (Z.to_nat j) (Z.to_nat (_length self)));
        [reflexivity|lia]. }
    rewrite <- E. apply nth_In. rewrite length_firstn.
    unfold len in Hle. lia.
  - do 2 eexists. split; [reflexivity|]. split; [reflexivity|].
    split; [reflexivity|]. constructor.
  - do 2 eexists. split; [reflexivity|]. split; [reflexivity|].
    split; [reflexivity|]. constructor.
Qed.

(** X10: when the list has become longer than the recorded length (and that
    length is positive), every sequence of calls still succeeds, and it
    hands back elements among the first [_length] ones only: what was
    appended after the construction is never reached. *)
Theorem run_within_recorded_length cs : forall self,
  0 < _length self <= len (_elements self) ->
  exists out self',
    run cs self = Ok (out, self') /\
    Forall (fun x => In x (firstn (Z.to_nat (_length self)) (_elements self)))
           out.
Proof.
  induction cs as [|c cs IH]; intros self H; cbn [run].
  - exists [], self. split; [reflexivity|constructor].
  - destruct (perform_within_recorded c self H)
      as (xs & s1 & -> & He & Hl & Hx).
    cbn [bind].
    assert (H1 : 0 < _length s1 <= len (_elements s1)) by now rewrite He, Hl.
    destruct (IH s1 H1) as (ys & s2 & -> & Hy). cbn [bind].
    do 2 eexists. split; [reflexivity|].
    apply Forall_app. split; [exact Hx|]. now rewrite <- He, <- Hl.
Qed.

End RecordedLength.

(** ** Cycles *)

Section Cycles.
Context {T : Type}.
Implicit Types (self : t T) (d : T) (elements : list T).

Lemma nth_map_seq_1 (f : nat -> T) (n k : nat) d :
  (k < n)%nat -> nth k (map f (seq 1 n)) d = f (S k).
Proof.
  intro Hk.
  rewrite (nth_indep _ d (f O)) by (now rewrite length_map, length_seq).
  rewrite map_nth, seq_nth by exact Hk. reflexivity.
Qed.

Lemma rev_seq_0 (n : nat) :
  rev (seq 0 n) = map (fun k => (n - k)%nat) (seq 1 n).
Proof.
  induction n as [|n IH]; [reflexivity|].
  rewrite seq_S at 1. rewrite rev_app_distr. cbn [rev app Nat.add].
  rewrite IH. cbn [seq map]. f_equal; [lia|].
  rewrite <- (seq_shift n 1), map_map. reflexivity.
Qed.

Lemma mod_wrap_once (x n : Z) : n <= x < 2 * n -> x mod n = x - n.
Proof.
  intro H. replace x with (x - n + 1 * n) at 1 by ring.
  rewrite Z.mod_add by lia. apply Z.mod_small. lia.
Qed.

(** The values of a forward cycle, as a rotation of the list. *)
Lemma forward_outputs_rotation elements i d :
  0 <= i < len elements ->
  map (fun k => item elements ((i + Z.of_nat k) mod len elements) d)
      (seq 1 (List.length elements))
  = skipn (Z.to_nat i + 1) elements ++ firstn (Z.to_nat i + 1) elements.
Proof.
  intros Hi. unfold len in *.
  set (N := List.length elements) in *. set (a := Z.to_nat i).
  assert (Ha : (a < N)%nat) by lia.
  apply (nth_ext _ _ d d).
  - rewrite length_map, length_seq, length_app, length_skipn, length_firstn.
    fold N. lia.
  - rewrite length_map, length_seq. intros k Hk.
    rewrite nth_map_seq_1 by exact Hk. unfold item.
    destruct (Nat.lt_ge_cases k (N - (a + 1))) as [Hlt|Hge].
    + rewrite app_nth1 by (rewrite length_skipn; fold N; lia).
      rewrite nth_skipn. f_equal.
      rewrite Z.mod_small by lia. lia.
    + rewrite app_nth2 by (rewrite length_skipn; fold N; lia).
      rewrite length_skipn. fold N. rewrite nth_firstn.
      destruct (Nat.ltb_spec (k - (N - (a + 1))) (a + 1)) as [_|F]; [|lia].
      f_equal. rewrite mod_wrap_once by lia. lia.
Qed.

(** The element [k] steps back from [i] in the list is the element [k]
    steps forth from the mirrored position in the reversed list. *)
Lemma item_mirror elements (i k : Z) d :
  elements <> [] ->
  item elements ((i - k) mod len elements) d
  = item (rev elements) ((len elements - 1 - i + k) mod len elements) d.
Proof.
  intro Hne. apply len_pos_iff in Hne.
  set (N := len elements) in *.
  assert (Ha := Z.mod_pos_bound (i - k) N Hne).
  assert (E : (N - 1 - i + k) mod N = N - 1 - (i - k) mod N).
  { symmetry. apply (Z.mod_unique _ _ (- ((i - k) / N))); [lia|].
    assert (Hdm := Z.div_mod (i - k) N). rewrite Z.mul_opp_r. lia. }
  rewrite E. unfold item, N, len in *.
  rewrite rev_nth by lia. f_equal. lia.
Qed.

(** X2: [N] calls of [next] bring an instance whose cursor is in range back
    to where it was, whichever direction it has. *)
Theorem full_cycle_restores_instance self :
  nonempty self -> in_range self ->
  exists outs,
    next_n (Z.to_nat (_length self)) self = Ok (outs, self) /\
    List.length outs = Z.to_nat (_length self).
Proof.
  intros Hne Hin. destruct (nonempty_has_element self Hne) as [d _].
  rewrite (next_n_spec _ self d Hne).
  eexists. split; [|now rewrite length_map, length_seq].
  destruct Hne as [_ Hpos].
  destruct (Z.to_nat (_length self)) as [|m] eqn:Em; [lia|].
  rewrite <- Em, Z2Nat.id by lia.
  rewrite Z.mod_add by lia. rewrite Z.mod_small by exact Hin.
  unfold at_index. now rewrite instance_eta.
Qed.

(** X3: the iteration never ends and repeats itself: [n] calls of [next] hand
    back [n] values, for every [n], and the value handed back by a call
    is the one handed back [N] calls earlier. *)
Theorem next_n_periodic self n d :
  nonempty self ->
  exists outs self',
    next_n n self = Ok (outs, self') /\
    List.length outs = n /\
    forall k, (k + Z.to_nat (_length self) < n)%nat ->
      nth (k + Z.to_nat (_length self)) outs d = nth k outs d.
Proof.
  intro Hne. rewrite (next_n_spec n self d Hne).
  do 2 eexists. split; [reflexivity|].
  split; [now rewrite length_map, length_seq|].
  intros k Hk. rewrite !nth_map_seq_1 by lia. f_equal.
  destruct Hne as [_ Hpos].
  replace (Z.of_nat (S (k + Z.to_nat (_length self))))
    with (Z.of_nat (S k) + _length self) by lia.
  rewrite Z.mul_add_distr_l, Z.add_assoc. now rewrite Z.mod_add by lia.
Qed.

(** X4: one forward cycle hands back the list rotated: what follows the
    starting position, then the list up to and including it.  So it hands
    back every element as many times as the list holds it. *)
Theorem forward_cycle_is_rotation elements i :
  elements <> [] -> 0 <= i < len elements ->
  exists outs self',
    forward_traversal elements i (List.length elements) = Ok (outs, self') /\
    outs = skipn (Z.to_nat i + 1) elements
           ++ firstn (Z.to_nat i + 1) elements /\
    Permutation outs elements.
Proof.
  intros Hne Hi. destruct elements as [|d l] eqn:E; [congruence|].
  rewrite <- E in *.
  rewrite (forward_traversal_spec elements i _ d Hne).
  rewrite (forward_outputs_rotation elements i d Hi).
  do 2 eexists. split; [reflexivity|]. split; [reflexivity|].
  rewrite Permutation_app_comm. now rewrite firstn_skipn.
Qed.

(** X5: one reverse cycle hands back the list up to the starting position,
    backwards, then the rest of the list, backwards: it ends on the
    starting element. *)
Theorem reverse_cycle_is_rotation elements i :
  elements <> [] -> 0 <= i < len elements ->
  exists outs self',
    reverse_traversal elements i (List.length elements) = Ok (outs, self') /\
    outs = rev (firstn (Z.to_nat i) elements)
           ++ rev (skipn (Z.to_nat i) elements) /\
    Permutation outs elements.
Proof.
  intros Hne Hi. destruct elements as [|d l] eqn:E; [congruence|].
  rewrite <- E in *.
  rewrite (reverse_traversal_spec elements i _ d Hne).
  assert (Hrot :
    map (fun k => item elements ((i - Z.of_nat k) mod len elements) d)
        (seq 1 (List.length elements))
    = rev (firstn (Z.to_nat i) elements) ++ rev (skipn (Z.to_nat i) elements)).
  { rewrite (map_ext _ _ (fun k => item_mirror elements i (Z.of_nat k) d Hne)).
    assert (Hlen : len (rev elements) = len elements)
      by (unfold len; now rewrite length_rev).
    assert (Hm : 0 <= len elements - 1 - i < len (rev elements)) by lia.
    assert (Hfwd := forward_outputs_rotation (rev elements) _ d Hm).
    rewrite Hlen, length_rev in Hfwd. rewrite Hfwd.
    rewrite skipn_rev, firstn_rev. unfold len in *.
    do 3 f_equal; lia. }
  rewrite Hrot. do 2 eexists. split; [reflexivity|]. split; [reflexivity|].
  rewrite <- rev_app_distr, <- Permutation_rev.
  rewrite Permutation_app_comm. now rewrite firstn_skipn.
Qed.

(** X6: iterating in reverse is iterating forward over the reversed list, from
    the mirrored starting index: the two hand back the same values, for
    every starting index and every number of calls. *)
Theorem reverse_is_forward_on_reversed elements i n :
  elements <> [] ->
  outputs (reverse_traversal elements i n)
  = outputs (forward_traversal (rev elements) (len elements - 1 - i) n).
Proof.
  intro Hne. destruct elements as [|d l] eqn:E; [congruence|].
  rewrite <- E in *.
  assert (Hne' : rev elements <> []).
  { intro H. apply (f_equal (@List.length T)) in H.
    rewrite length_rev, E in H. discriminate. }
  rewrite (reverse_traversal_spec elements i n d Hne).
  rewrite (forward_traversal_spec (rev elements) _ n d Hne').
  cbn [outputs bind]. f_equal.
  assert (Hlen : len (rev elements) = len elements)
    by (unfold len; now rewrite length_rev).
  rewrite Hlen. apply map_ext. intro k. now apply item_mirror.
Qed.

(** X7: after [n] forward calls, switching to reverse and calling [n] times
    retraces the way: the values are the starting element followed by the
    forward values, without the last one (where the cursor stands),
    backwards; and the cursor is back where it started. *)
Theorem reverse_retraces_forward self n d :
  nonempty self -> in_range self -> _direction self = 1 ->
  exists fwd self1 self1' bwd self2,
    next_n n self = Ok (fwd, self1) /\
    set_direction_reverse self1 = Ok self1' /\
    next_n n self1' = Ok (bwd, self2) /\
    bwd = rev (removelast (item (_elements self) (_index self) d :: fwd)) /\
    _index self2 = _index self.
Proof.
  intros Hne Hin Hdir.
  set (L := _length self). set (i := _index self).
  assert (Hpos : 0 < L) by apply Hne.
  rewrite (next_n_spec n self d Hne). fold L i. rewrite Hdir.
  set (self1 := match n with O => self | S _ => _ end).
  assert (Hi1 : _index self1 = (i + Z.of_nat n) mod L).
  { unfold self1. destruct n as [|m].
    - cbn [Z.of_nat]. rewrite Z.add_0_r. symmetry. now apply Z.mod_small.
    - cbn [at_index _index]. now rewrite Z.mul_1_l. }
  assert (He1 : _elements self1 = _elements self)
    by (unfold self1; now destruct n).
  assert (Hl1 : _length self1 = L) by (unfold self1; now destruct n).
  set (self1' := Build (_elements self1) (_index self1) (-1) (_length self1)).
  assert (Hne1 : nonempty self1').
  { unfold nonempty, self1'. cbn [_length _elements].
    rewrite He1, Hl1. exact Hne. }
  exists (map (fun k => item (_elements self) ((i + 1 * Z.of_nat k) mod L) d)
              (seq 1 n)), self1, self1'.
  rewrite (next_n_spec n self1' d Hne1).
  cbn [self1' _elements _index _direction _length]. rewrite He1, Hl1, Hi1.
  do 2 eexists. split; [reflexivity|]. split; [reflexivity|].
  split; [reflexivity|]. split.
  - replace (item (_elements self) i d)
      with (item (_elements self) ((i + 1 * Z.of_nat 0) mod L) d)
      by (cbn [Z.of_nat]; rewrite Z.mul_0_r, Z.add_0_r;
          now rewrite Z.mod_small by exact Hin).
    change (?x :: map ?f (seq 1 n)) with (map f (seq 0 (S n))).
    rewrite seq_S, map_app. cbn [map Nat.add]. rewrite removelast_last.
    rewrite <- map_rev, rev_seq_0, map_map.
    apply map_ext_in. intros k Hk. apply in_seq in Hk. f_equal.
    rewrite Zplus_mod_idemp_l. f_equal. lia.
  - destruct n as [|m].
    + reflexivity.
    + cbn [at_index _index]. rewrite Zplus_mod_idemp_l.
      replace (i + Z.of_nat (S m) + -1 * Z.of_nat (S m)) with i by ring.
      now apply Z.mod_small.
Qed.

End Cycles.

Lemma run_empty_raises_witness :
  _length (Build (@nil string) 5 1 0) = 0 /\
  In Next [SetDirectionReverse; Next; Next] /\
  run [SetDirectionReverse; Next; Next] (Build (@nil string) 5 1 0)
    = Raise ZeroDivisionError.
Proof.
  assert (H1 : _length (Build (@nil string) 5 1 0) = 0) by reflexivity.
  assert (H2 : In Next [SetDirectionReverse; Next; Next])
    by (simpl; auto).
  split; [exact H1|]. split; [exact H2|].
  exact (run_empty_raises [SetDirectionReverse; Next; Next]
           (Build (@nil string) 5 1 0) H1 H2).
Defined.

Lemma next_past_end_raises_witness :
  0 < _length (Build ["rick"%string] 0 1 2) /\
  len ["rick"%string] <= (0 + 1) mod 2 /\
  next (Build ["rick"%string] 0 1 2) = Raise IndexError.
Proof.
  assert (H1 : 0 < _length (Build ["rick"%string] 0 1 2)) by reflexivity.
  assert (H2 : len ["rick"%string] <= (0 + 1) mod 2) by (cbn; lia).
  split; [exact H1|]. split; [exact H2|].
  exact (next_past_end_raises (Build ["rick"%string] 0 1 2) H1 H2).
Defined.

Lemma run_within_recorded_length_witness :
  0 < 2 <= len ["rick"; "morty"; "summer"]%string /\
  exists out self',
    run [Next; Next; SetDirectionReverse; Next] (Build ["rick"; "morty"; "summer"]%string 0 1 2)
      = Ok (out, self') /\
    Forall (fun x => In x (firstn (Z.to_nat 2) ["rick"; "morty"; "summer"]%string)) out.
Proof.
  assert (H : 0 < _length (Build ["rick"; "morty"; "summer"]%string 0 1 2)
              <= len (_elements (Build ["rick"; "morty"; "summer"]%string 0 1 2))) by (cbn; lia).
  split; [exact H|].
  exact (run_within_recorded_length [Next; Next; SetDirectionReverse; Next]
           (Build ["rick"; "morty"; "summer"]%string 0 1 2) H).
Defined.

Lemma full_cycle_restores_instance_witness :
  nonempty (Build ["rick"; "morty"; "summer"]%string 1 (-1) 3) /\
  in_range (Build ["rick"; "morty"; "summer"]%string 1 (-1) 3) /\
  exists outs,
    next_n (Z.to_nat 3) (Build ["rick"; "morty"; "summer"]%string 1 (-1) 3)
      = Ok (outs, Build ["rick"; "morty"; "summer"]%string 1 (-1) 3) /\
    List.length outs = Z.to_nat 3.
Proof.
  assert (Hne : nonempty (Build ["rick"; "morty"; "summer"]%string 1 (-1) 3)) by (split; reflexivity).
  assert (Hin : in_range (Build ["rick"; "morty"; "summer"]%string 1 (-1) 3))
    by (unfold in_range; cbn; lia).
  split; [exact Hne|]. split; [exact Hin|].
  exact (full_cycle_restores_instance (Build ["rick"; "morty"; "summer"]%string 1 (-1) 3) Hne Hin).
Defined.

Lemma next_n_periodic_witness :
  nonempty (Build ["rick"; "morty"; "summer"]%string 0 1 3) /\
  exists outs self',
    next_n 7 (Build ["rick"; "morty"; "summer"]%string 0 1 3) = Ok (outs, self') /\
    List.length outs = 7%nat /\
    forall k, (k + Z.to_nat 3 < 7)%nat ->
      nth (k + Z.to_nat 3) outs EmptyString = nth k outs EmptyString.
Proof.
  assert (Hne : nonempty (Build ["rick"; "morty"; "summer"]%string 0 1 3)) by (split; reflexivity).
  split; [exact Hne|].
  exact (next_n_periodic (Build ["rick"; "morty"; "summer"]%string 0 1 3) 7 EmptyString Hne).
Defined.

Lemma forward_cycle_is_rotation_witness :
  ["rick"; "morty"; "summer"]%string <> [] /\
  0 <= 0 < len ["rick"; "morty"; "summer"]%string /\
  exists outs self',
    forward_traversal ["rick"; "morty"; "summer"]%string 0 3 = Ok (outs, self') /\
    outs = skipn (Z.to_nat 0 + 1) ["rick"; "morty"; "summer"]%string ++ firstn (Z.to_nat 0 + 1) ["rick"; "morty"; "summer"]%string /\
    Permutation outs ["rick"; "morty"; "summer"]%string.
Proof.
  assert (H1 : ["rick"; "morty"; "summer"]%string <> []) by discriminate.
  assert (H2 : 0 <= 0 < len ["rick"; "morty"; "summer"]%string) by (cbn; lia).
  split; [exact H1|]. split; [exact H2|].
  exact (forward_cycle_is_rotation ["rick"; "morty"; "summer"]%string 0 H1 H2).
Defined.

Lemma reverse_cycle_is_rotation_witness :
  ["rick"; "morty"; "summer"]%string <> [] /\
  0 <= 1 < len ["rick"; "morty"; "summer"]%string /\
  exists outs self',
    reverse_traversal ["rick"; "morty"; "summer"]%string 1 3 = Ok (outs, self') /\
    outs = rev (firstn (Z.to_nat 1) ["rick"; "morty"; "summer"]%string) ++ rev (skipn (Z.to_nat 1) ["rick"; "morty"; "summer"]%string) /\
    Permutation outs ["rick"; "morty"; "summer"]%string.
Proof.
  assert (H1 : ["rick"; "morty"; "summer"]%string <> []) by discriminate.
  assert (H2 : 0 <= 1 < len ["rick"; "morty"; "summer"]%string) by (cbn; lia).
  split; [exact H1|]. split; [exact H2|].
  exact (reverse_cycle_is_rotation ["rick"; "morty"; "summer"]%string 1 H1 H2).
Defined.

Lemma reverse_is_forward_on_reversed_witness :
  ["rick"; "morty"; "summer"]%string <> [] /\
  outputs (reverse_traversal ["rick"; "morty"; "summer"]%string 0 5)
  = outputs (forward_traversal (rev ["rick"; "morty"; "summer"]%string) (len ["rick"; "morty"; "summer"]%string - 1 - 0) 5).
Proof.
  assert (H1 : ["rick"; "morty"; "summer"]%string <> []) by discriminate.
  split; [exact H1|].
  exact (reverse_is_forward_on_reversed ["rick"; "morty"; "summer"]%string 0 5 H1).
Defined.

Lemma reverse_retraces_forward_witness :
  nonempty (Build ["rick"; "morty"; "summer"]%string 0 1 3) /\
  in_range (Build ["rick"; "morty"; "summer"]%string 0 1 3) /\
  exists fwd self1 self1' bwd self2,
    next_n 2 (Build ["rick"; "morty"; "summer"]%string 0 1 3) = Ok (fwd, self1) /\
    set_direction_reverse self1 = Ok self1' /\
    next_n 2 self1' = Ok (bwd, self2) /\
    bwd = rev (removelast (item ["rick"; "morty"; "summer"]%string 0 EmptyString :: fwd)) /\
    _index self2 = 0.
Proof.
  assert (Hne : nonempty (Build ["rick"; "morty"; "summer"]%string 0 1 3)) by (split; reflexivity).
  assert (Hin : in_range (Build ["rick"; "morty"; "summer"]%string 0 1 3))
    by (unfold in_range; cbn; lia).
  split; [exact Hne|]. split; [exact Hin|].
  exact (reverse_retraces_forward (Build ["rick"; "morty"; "summer"]%string 0 1 3) 2 EmptyString
           Hne Hin eq_refl).
Defined.

Example forward_cycle_from_the_middle :
  outputs (forward_traversal ["rick"; "morty"; "summer"]%string 1 3)
  = Ok ["summer"; "rick"; "morty"]%string.
Proof. reflexivity. Qed.

Example reverse_cycle_from_the_middle :
  outputs (reverse_traversal ["rick"; "morty"; "summer"]%string 1 3)
  = Ok ["rick"; "summer"; "morty"]%string.
Proof. reflexivity. Qed.

Example there_and_back :
  (self <- init ["rick"; "morty"; "summer"]%string 0 ;;
   outputs (run [Next; Next; SetDirectionReverse; Next; Next] self))
  = Ok ["morty"; "summer"; "morty"; "rick"]%string.
Proof. reflexivity. Qed.
